(* Shallow embedding of the uhyve filesystem bridge (src/fs/uhyve.rs) of the
   Hermit kernel: the wire structures, the hypercall transport, the file
   handle with its shared, drop-triggered close, the directory node and the
   mount initializer. *)

From Stdlib Require Import ZArith List String Ascii Bool Lia.
Import ListNotations.
Open Scope Z_scope.

(* ------------------------------------------------------------------------- *)
(** * Machine integers *)

(** A field of [w] bits read back as a signed integer: the host writes a bit
    pattern of the field's width. *)
Definition wrap_signed (w : Z) (z : Z) : Z :=
  (z + 2 ^ (w - 1)) mod 2 ^ w - 2 ^ (w - 1).

Definition i32_of (z : Z) : Z := wrap_signed 32 z.
Definition isize_of (z : Z) : Z := wrap_signed 64 z.

Definition isize_max : Z := 2 ^ 63 - 1.

(** [usize::try_into::<isize>()]: fails above [isize::MAX]. *)
Definition usize_try_into_isize (n : Z) : option Z :=
  if n <=? isize_max then Some n else None.

(* ------------------------------------------------------------------------- *)
(** * The guest's error kinds *)

(** Modelled from the spec: [crate::fd::IoError] and its
    [num::FromPrimitive] derivation (not under src/).  The spec: the host
    returns negated POSIX-style codes, and the error-kind enumeration is the
    mapping table from POSIX codes to kinds ("no such file", "permission
    denied", "invalid argument", "not implemented", "not supported", ...).
    Each kind carries its POSIX number as discriminant. *)
Inductive IoError :=
| ENOENT | EIO | EBADF | EAGAIN | EACCES | EFAULT | EEXIST | ENOTDIR
| EISDIR | EINVAL | EMFILE | ENOSYS | EOVERFLOW | ENOTSUP.

Definition IoError_discriminant (e : IoError) : Z :=
  match e with
  | ENOENT => 2 | EIO => 5 | EBADF => 9 | EAGAIN => 11 | EACCES => 13
  | EFAULT => 14 | EEXIST => 17 | ENOTDIR => 20 | EISDIR => 21
  | EINVAL => 22 | EMFILE => 24 | ENOSYS => 38 | EOVERFLOW => 75
  | ENOTSUP => 95
  end.

Definition all_IoErrors : list IoError :=
  [ENOENT; EIO; EBADF; EAGAIN; EACCES; EFAULT; EEXIST; ENOTDIR; EISDIR;
   EINVAL; EMFILE; ENOSYS; EOVERFLOW; ENOTSUP].

(** [FromPrimitive::from_i64] as derived: the variant whose discriminant is
    the number, if any. *)
Definition from_i64 (n : Z) : option IoError :=
  find (fun e => IoError_discriminant e =? n) all_IoErrors.

Definition from_i32 (n : Z) : option IoError := from_i64 n.
Definition from_isize (n : Z) : option IoError := from_i64 n.

(* ------------------------------------------------------------------------- *)
(** * Strings *)

Definition nul : ascii := Ascii.zero.

(** A string ends with the NUL byte. *)
Fixpoint ends_with_nul (s : string) : bool :=
  match s with
  | EmptyString => false
  | String c EmptyString => Ascii.eqb c nul
  | String _ s' => ends_with_nul s'
  end.

Fixpoint has_nul (s : string) : bool :=
  match s with
  | EmptyString => false
  | String c s' => Ascii.eqb c nul || has_nul s'
  end.

(** [components.iter().map(|v| "/".to_owned() + v).collect::<String>()] *)
Definition collect_path (components : list string) : string :=
  fold_right (fun v acc => ("/" ++ v) ++ acc)%string EmptyString components.

(** The path string built by [UhyveDirectory::traverse_open]. *)
Definition open_path (components : list string) : string :=
  match components with
  | [] => String "/" (String nul EmptyString)
  | _ => collect_path components
  end.

(** The path string built by [UhyveDirectory::traverse_unlink]. *)
Definition unlink_path (components : list string) : string :=
  match components with
  | [] => "/"%string
  | _ => collect_path components
  end.

(* ------------------------------------------------------------------------- *)
(** * Ports and wire structures *)

Definition UHYVE_PORT_WRITE : Z := 1024.   (* 0x400 *)
Definition UHYVE_PORT_OPEN : Z := 1088.    (* 0x440 *)
Definition UHYVE_PORT_CLOSE : Z := 1152.   (* 0x480 *)
Definition UHYVE_PORT_READ : Z := 1280.    (* 0x500 *)
Definition UHYVE_PORT_LSEEK : Z := 1408.   (* 0x580 *)
Definition UHYVE_PORT_UNLINK : Z := 2112.  (* 0x840 *)

(** A pointer field holds the physical address of a guest buffer; the
    embedding records the bytes found at that address ([name]: the bytes of
    the path [String]) or the buffer length. *)
Record SysOpen := { open_name : string; open_flags : Z; open_mode : Z; open_ret : Z }.
Record SysClose := { close_fd : Z; close_ret : Z }.
Record SysRead := { read_fd : Z; read_len : Z; read_ret : Z }.
Record SysWrite := { write_fd : Z; write_buf : list ascii; write_len : Z }.
Record SysLseek := { lseek_fd : Z; lseek_offset : Z; lseek_whence : Z }.
Record SysUnlink := { unlink_name : string; unlink_ret : Z }.

Definition SysOpen_new (name : string) (flags mode : Z) : SysOpen :=
  {| open_name := name; open_flags := flags; open_mode := mode; open_ret := -1 |}.
Definition SysClose_new (fd : Z) : SysClose := {| close_fd := fd; close_ret := -1 |}.
Definition SysRead_new (fd len : Z) : SysRead :=
  {| read_fd := fd; read_len := len; read_ret := -1 |}.
Definition SysWrite_new (fd : Z) (buf : list ascii) (len : Z) : SysWrite :=
  {| write_fd := fd; write_buf := buf; write_len := len |}.

(** Modelled from the spec: [crate::fs::SeekWhence] and its
    [num::ToPrimitive] derivation (not under src/): the conventional
    start/current/end origins as the small integers 0, 1, 2. *)
Inductive SeekWhence := Set_ | Cur | End.

Definition SeekWhence_to_i32 (w : SeekWhence) : option Z :=
  match w with Set_ => Some 0 | Cur => Some 1 | End => Some 2 end.

Definition SysUnlink_new (name : string) : SysUnlink :=
  {| unlink_name := name; unlink_ret := -1 |}.

(** The request as the host receives it (the fields the guest filled in). *)
Inductive Req :=
| ROpen (name : string) (flags mode : Z)
| RClose (fd : Z)
| RRead (fd len : Z)
| RWrite (fd : Z) (buf : list ascii) (len : Z)
| RLseek (fd offset whence : Z)
| RUnlink (name : string).

(** A hypercall: the port written and the request behind the address. *)
Definition Event : Type := (Z * Req)%type.

(** The host protocol of a wire structure: what the host reads, and where the
    value it writes back lands.  [SysWrite] has no result field, so the
    host's answer leaves it as it was. *)
Class Wire (T : Type) := {
  wire_req : T -> Req;
  wire_result : T -> Z -> T
}.

#[export] Instance Wire_SysOpen : Wire SysOpen := {
  wire_req s := ROpen (open_name s) (open_flags s) (open_mode s);
  wire_result s r := {| open_name := open_name s; open_flags := open_flags s;
                        open_mode := open_mode s; open_ret := i32_of r |}
}.
#[export] Instance Wire_SysClose : Wire SysClose := {
  wire_req s := RClose (close_fd s);
  wire_result s r := {| close_fd := close_fd s; close_ret := i32_of r |}
}.
#[export] Instance Wire_SysRead : Wire SysRead := {
  wire_req s := RRead (read_fd s) (read_len s);
  wire_result s r := {| read_fd := read_fd s; read_len := read_len s;
                        read_ret := isize_of r |}
}.
#[export] Instance Wire_SysWrite : Wire SysWrite := {
  wire_req s := RWrite (write_fd s) (write_buf s) (write_len s);
  wire_result s _ := s
}.
#[export] Instance Wire_SysLseek : Wire SysLseek := {
  wire_req s := RLseek (lseek_fd s) (lseek_offset s) (lseek_whence s);
  wire_result s r := {| lseek_fd := lseek_fd s; lseek_offset := isize_of r;
                        lseek_whence := lseek_whence s |}
}.
#[export] Instance Wire_SysUnlink : Wire SysUnlink := {
  wire_req s := RUnlink (unlink_name s);
  wire_result s r := {| unlink_name := unlink_name s; unlink_ret := i32_of r |}
}.

(* ------------------------------------------------------------------------- *)
(** * The transport monad *)

(** A host answers a request with the value it writes into the result field. *)
Definition Host : Type := Req -> Z.

(** Kernel code: the hypercall log is threaded through, and [None] is a
    panic. *)
Definition M (A : Type) : Type := Host -> list Event -> option A * list Event.

Definition ret {A} (a : A) : M A := fun _ log => (Some a, log).

Definition bind {A B} (m : M A) (f : A -> M B) : M B :=
  fun h log =>
    match m h log with
    | (Some a, log') => f a h log'
    | (None, log') => (None, log')
    end.

Notation "x <- m ;; k" := (bind m (fun x => k))
  (at level 61, m at next level, right associativity).

(** [Option::unwrap] *)
Definition unwrap {A} (o : option A) : M A :=
  fun _ log => (o, log).

(** [uhyve_send]: the buffer's address is translated (the translation is
    taken to succeed), the host is signalled on [port], executes the request
    and writes its result into the structure before the call returns. *)
Definition uhyve_send {T} `{Wire T} (port : Z) (data : T) : M T :=
  fun h log => (Some (wire_result data (h (wire_req data))), log ++ [(port, wire_req data)]).

Inductive result (A : Type) := Ok (a : A) | Err (e : IoError).
Arguments Ok {A} a.
Arguments Err {A} e.

(* ------------------------------------------------------------------------- *)
(** * UhyveFileHandleInner *)

Definition inner_read (fd : Z) (buf : list ascii) : M (result Z) :=
  sysread <- uhyve_send UHYVE_PORT_READ (SysRead_new fd (Z.of_nat (List.length buf)));;
  if read_ret sysread >=? 0 then ret (Ok (read_ret sysread))
  else e <- unwrap (from_isize (read_ret sysread));; ret (Err e).

Definition inner_write (fd : Z) (buf : list ascii) : M (result Z) :=
  syswrite <- uhyve_send UHYVE_PORT_WRITE (SysWrite_new fd buf (Z.of_nat (List.length buf)));;
  n <- unwrap (usize_try_into_isize (write_len syswrite));;
  ret (Ok n).

Definition inner_lseek (fd offset : Z) (whence : SeekWhence) : M (result Z) :=
  w <- unwrap (SeekWhence_to_i32 whence);;
  syslseek <- uhyve_send UHYVE_PORT_LSEEK
                {| lseek_fd := fd; lseek_offset := offset; lseek_whence := w |};;
  if lseek_offset syslseek >=? 0 then ret (Ok (lseek_offset syslseek))
  else ret (Err EINVAL).

(** [Drop for UhyveFileHandleInner]: the close result is ignored. *)
Definition inner_drop (fd : Z) : M unit :=
  _ <- uhyve_send UHYVE_PORT_CLOSE (SysClose_new fd);; ret tt.

(* ------------------------------------------------------------------------- *)
(** * UhyveDirectory *)

(** [traverse_open]; a successful result stands for the new
    [UhyveFileHandle::new(fd)], given by its descriptor. *)
Definition traverse_open (components : list string) (opt : Z) : M (result Z) :=
  let path := open_path components in
  sysopen <- uhyve_send UHYVE_PORT_OPEN (SysOpen_new path opt 0);;
  if 0 <? open_ret sysopen then ret (Ok (open_ret sysopen))
  else e <- unwrap (from_i32 (open_ret sysopen));; ret (Err e).

Definition traverse_unlink (components : list string) : M (result unit) :=
  let path := unlink_path components in
  sysunlink <- uhyve_send UHYVE_PORT_UNLINK (SysUnlink_new path);;
  if unlink_ret sysunlink =? 0 then ret (Ok tt)
  else e <- unwrap (from_i32 (unlink_ret sysunlink));; ret (Err e).

(** [FileAttr] and the directory object are not inspected: unit stands in. *)
Definition traverse_opendir (_omponents : list string) : M (result unit) := ret (Err ENOSYS).
Definition traverse_stat (_components : list string) : M (result unit) := ret (Err ENOSYS).
Definition traverse_lstat (_components : list string) : M (result unit) := ret (Err ENOSYS).
Definition traverse_rmdir (_components : list string) : M (result unit) := ret (Err ENOSYS).
Definition traverse_mkdir (_components : list string) (_mode : Z) : M (result unit) :=
  ret (Err ENOSYS).

(* ------------------------------------------------------------------------- *)
(** * UhyveFileHandle: shared ownership and drop-triggered close *)

Module Handles.

Fixpoint replace_nth {A} (n : nat) (x : A) (l : list A) : list A :=
  match l, n with
  | [], _ => []
  | _ :: t, O => x :: t
  | y :: t, S n' => y :: replace_nth n' x t
  end.

Fixpoint remove_nth {A} (n : nat) (l : list A) : list A :=
  match l, n with
  | [], _ => []
  | _ :: t, O => t
  | y :: t, S n' => y :: remove_nth n' t
  end.

(** The allocation of an [Arc<SpinMutex<UhyveFileHandleInner>>]: the inner
    descriptor and the strong count. *)
Record Cell := { cell_fd : Z; strong : nat }.

(** The heap of such allocations, the live [UhyveFileHandle] values (each
    pointing at a cell), and the hypercall log.  Each log entry carries, as
    ghost information, the cell whose [Drop] issued it ([None] otherwise). *)
Record St := { heap : list Cell; live : list nat; log : list (option nat * Event) }.

Definition init_st : St := {| heap := []; live := []; log := [] |}.

(** The program steps on handles: [traverse_open] (a successful one creates
    a new handle), [clone] of a live handle, and the end of scope of a live
    handle. *)
Inductive Op :=
| OpOpen (components : list string) (opt : Z)
| OpClone (i : nat)
| OpDrop (i : nat).

Definition tag (a : option nat) (evs : list Event) : list (option nat * Event) :=
  map (fun e => (a, e)) evs.

(** [None]: the kernel panicked, or the step names no live handle. *)
Definition step (h : Host) (s : St) (op : Op) : option St :=
  match op with
  | OpOpen comps opt =>
      match traverse_open comps opt h [] with
      | (Some (Ok fd), evs) =>
          (* UhyveFileHandle::new: Arc::new with strong count 1 *)
          Some {| heap := heap s ++ [{| cell_fd := fd; strong := 1 |}];
                  live := live s ++ [List.length (heap s)];
                  log := log s ++ tag None evs |}
      | (Some (Err _), evs) =>
          Some {| heap := heap s; live := live s; log := log s ++ tag None evs |}
      | (None, _) => None
      end
  | OpClone i =>
      (* Clone for UhyveFileHandle: Arc::clone *)
      match nth_error (live s) i with
      | Some c =>
          match nth_error (heap s) c with
          | Some cell =>
              Some {| heap := replace_nth c {| cell_fd := cell_fd cell;
                                               strong := S (strong cell) |} (heap s);
                      live := live s ++ [c];
                      log := log s |}
          | None => None
          end
      | None => None
      end
  | OpDrop i =>
      (* drop of the Arc: the last strong reference drops the inner value *)
      match nth_error (live s) i with
      | Some c =>
          match nth_error (heap s) c with
          | Some cell =>
              match strong cell with
              | O => None
              | S O =>
                  let evs := snd (inner_drop (cell_fd cell) h []) in
                  Some {| heap := replace_nth c {| cell_fd := cell_fd cell; strong := O |} (heap s);
                          live := remove_nth i (live s);
                          log := log s ++ tag (Some c) evs |}
              | S n =>
                  Some {| heap := replace_nth c {| cell_fd := cell_fd cell; strong := n |} (heap s);
                          live := remove_nth i (live s);
                          log := log s |}
              end
          | None => None
          end
      | None => None
      end
  end.

Fixpoint run (h : Host) (s : St) (ops : list Op) : option St :=
  match ops with
  | [] => Some s
  | op :: ops' => match step h s op with Some s' => run h s' ops' | None => None end
  end.

Definition live_refs (c : nat) (l : list nat) : nat := count_occ Nat.eq_dec l c.

Definition closes_of (c : nat) (l : list (option nat * Event)) : nat :=
  List.length (filter (fun ae => match fst ae with Some c' => Nat.eqb c' c | None => false end) l).

Definition is_close (e : Event) : bool := fst e =? UHYVE_PORT_CLOSE.

(** The number of Close hypercalls in a log. *)
Definition close_count (l : list (option nat * Event)) : nat :=
  List.length (filter (fun ae => is_close (snd ae)) l).

(** The number of allocations whose strong count has reached zero. *)
Definition released_count (cells : list Cell) : nat :=
  List.length (filter (fun cell => Nat.eqb (strong cell) 0) cells).

End Handles.

(* ------------------------------------------------------------------------- *)
(** * Mount initializer *)

(** The boxed [VfsNode] objects of the mount table. *)
Inductive Node := UhyveDirectory | OtherNode (id : nat).

Definition MountTable : Type := list (string * Node).

Definition mounted (path : string) (t : MountTable) : bool :=
  existsb (fun pn => String.eqb (fst pn) path) t.

Fixpoint lookup_mount (path : string) (t : MountTable) : option Node :=
  match t with
  | [] => None
  | (p, n) :: t' => if String.eqb p path then Some n else lookup_mount path t'
  end.

(** Modelled from the spec: [fs::Filesystem::mount] (not under src/).  The
    spec: mounting a second time at the same path is rejected (the error kind
    is not fixed by the spec); otherwise the node is registered at the path. *)
Definition mount (t : MountTable) (path : string) (obj : Node) : result MountTable :=
  if mounted path t then Err EEXIST else Ok ((path, obj) :: t).

(** [init]: [is_uhyve] is the hypervisor-detection oracle, [FILESYSTEM] the
    global once-cell holding the mount table.  The outer [None] is a panic
    (the [unwrap] of the cell or the [expect] of the mount). *)
Definition init (is_uhyve : bool) (FILESYSTEM : option MountTable)
  : option (option MountTable) :=
  if is_uhyve then
    let mount_point := "/host"%string in
    match FILESYSTEM with
    | None => None
    | Some fs =>
        match mount fs mount_point UhyveDirectory with
        | Ok fs' => Some (Some fs')
        | Err _ => None
        end
    end
  else Some FILESYSTEM.

(* ------------------------------------------------------------------------- *)
(** * Facts about the error-kind table and the path strings *)

Lemma discriminant_pos (e : IoError) : 0 < IoError_discriminant e.
Proof. destruct e; simpl; lia. Qed.

(** No kind has a non-positive discriminant, so the table maps no
    non-positive number. *)
Lemma from_i64_nonpos (n : Z) : n <= 0 -> from_i64 n = None.
Proof.
  intros Hn. unfold from_i64.
  assert (Hall : forall l, (forall e, In e l -> 0 < IoError_discriminant e) ->
                 find (fun e => IoError_discriminant e =? n) l = None).
  { induction l as [|e l IH]; intros Hl; simpl; [reflexivity|].
    destruct (Z.eqb_spec (IoError_discriminant e) n) as [Heq|_].
    - specialize (Hl e (or_introl eq_refl)). lia.
    - apply IH. intros e' He'. apply Hl. now right. }
  apply Hall. intros e _. apply discriminant_pos.
Qed.

Lemma append_empty_r (s : string) : (s ++ "")%string = s.
Proof. induction s as [|c s IH]; simpl; [reflexivity|]. now rewrite IH. Qed.

Lemma collect_path_concat (components : list string) :
  collect_path components = String.concat "" (map (fun v => "/" ++ v) components)%string.
Proof.
  induction components as [|v cs IH]; [reflexivity|].
  simpl. rewrite IH. destruct cs as [|v' cs']; simpl.
  - rewrite append_empty_r. reflexivity.
  - reflexivity.
Qed.

Lemma has_nul_append (s1 s2 : string) :
  has_nul (s1 ++ s2) = has_nul s1 || has_nul s2.
Proof.
  induction s1 as [|c s1 IH]; simpl; [reflexivity|].
  rewrite IH. apply Bool.orb_assoc.
Qed.

Lemma ends_with_nul_has_nul (s : string) : ends_with_nul s = true -> has_nul s = true.
Proof.
  induction s as [|c s IH]; simpl; [discriminate|].
  destruct s as [|c' s'].
  - intros H. rewrite H. reflexivity.
  - intros H. rewrite (IH H). apply Bool.orb_true_r.
Qed.

Lemma has_nul_collect_path (components : list string) :
  has_nul (collect_path components) = existsb has_nul components.
Proof.
  induction components as [|v cs IH]; [reflexivity|].
  change (collect_path (v :: cs)) with (("/" ++ v) ++ collect_path cs)%string.
  rewrite !has_nul_append, IH. reflexivity.
Qed.

Lemma traverse_open_log (components : list string) (opt : Z) (h : Host) (log : list Event) :
  snd (traverse_open components opt h log) =
    log ++ [(UHYVE_PORT_OPEN, ROpen (open_path components) opt 0)].
Proof.
  unfold traverse_open, bind, uhyve_send, ret, unwrap; simpl.
  destruct (0 <? _); [reflexivity|].
  destruct (from_i32 _); reflexivity.
Qed.

Lemma traverse_unlink_log (components : list string) (h : Host) (log : list Event) :
  snd (traverse_unlink components h log) =
    log ++ [(UHYVE_PORT_UNLINK, RUnlink (unlink_path components))].
Proof.
  unfold traverse_unlink, bind, uhyve_send, ret, unwrap; simpl.
  destruct (_ =? 0); [reflexivity|].
  destruct (from_i32 _); reflexivity.
Qed.

(* ------------------------------------------------------------------------- *)
(** * Claims *)

(** C2: [traverse_open] sends the host (as the Open request's path) the
    concatenation of ["/" ++ v] over the components; [open(["a","b"])] sends
    ["/a/b"], and [open([])] sends the root path ["/"] (NUL-terminated). *)
Theorem traverse_open_builds_path (components : list string) (opt : Z) (h : Host)
    (log : list Event) :
  snd (traverse_open components opt h log) =
    log ++ [(UHYVE_PORT_OPEN,
             ROpen (match components with
                    | [] => String "/" (String nul EmptyString)
                    | _ => String.concat "" (map (fun v => "/" ++ v) components)
                    end)%string opt 0)]
  /\ open_path ["a"; "b"]%string = "/a/b"%string
  /\ open_path [] = String "/" (String nul EmptyString).
Proof.
  split; [|split; reflexivity].
  rewrite traverse_open_log. unfold open_path.
  destruct components as [|v cs]; [reflexivity|].
  rewrite collect_path_concat. reflexivity.
Qed.

(** C4: [traverse_opendir], [traverse_stat], [traverse_lstat],
    [traverse_mkdir] and [traverse_rmdir] return [ENOSYS] whatever the
    components and mode, and issue no hypercall (the log is unchanged). *)
Theorem unsupported_ops_enosys (components : list string) (mode : Z) (h : Host)
    (log : list Event) :
  traverse_opendir components h log = (Some (Err ENOSYS), log)
  /\ traverse_stat components h log = (Some (Err ENOSYS), log)
  /\ traverse_lstat components h log = (Some (Err ENOSYS), log)
  /\ traverse_mkdir components mode h log = (Some (Err ENOSYS), log)
  /\ traverse_rmdir components h log = (Some (Err ENOSYS), log).
Proof. repeat split. Qed.

(** C6: [write] issues one Write hypercall and returns [Ok] of the buffer's
    length, whatever the host does (a Rust slice is at most [isize::MAX]
    bytes long, so the conversion succeeds). *)
Theorem write_returns_requested_len (fd : Z) (buf : list ascii) (h : Host)
    (log : list Event) (Hlen : Z.of_nat (List.length buf) <= isize_max) :
  inner_write fd buf h log =
    (Some (Ok (Z.of_nat (List.length buf))),
     log ++ [(UHYVE_PORT_WRITE, RWrite fd buf (Z.of_nat (List.length buf)))]).
Proof.
  unfold inner_write, bind, uhyve_send, unwrap, ret, usize_try_into_isize; simpl.
  apply Z.leb_le in Hlen. rewrite Hlen. reflexivity.
Qed.

Lemma write_returns_requested_len_witness :
  Z.of_nat (List.length ["h"; "i"]%char) <= isize_max /\
  inner_write 3 ["h"; "i"]%char (fun _ => -5) [] =
    (Some (Ok 2), [(UHYVE_PORT_WRITE, RWrite 3 ["h"; "i"]%char 2)]).
Proof.
  split.
  - unfold isize_max. simpl. lia.
  - apply (write_returns_requested_len 3 ["h"; "i"]%char (fun _ => -5) []).
    unfold isize_max. simpl. lia.
Defined.

(** C7: [lseek] issues one Lseek hypercall (whence encoded as 0/1/2) and
    returns [Ok] of the host-written offset when it is non-negative, and
    [Err EINVAL] for every negative one. *)
Theorem lseek_result (fd offset : Z) (whence : SeekWhence) (h : Host) (log : list Event) :
  let w := match whence with Set_ => 0 | Cur => 1 | End => 2 end in
  let r := isize_of (h (RLseek fd offset w)) in
  inner_lseek fd offset whence h log =
    (Some (if 0 <=? r then Ok r else Err EINVAL),
     log ++ [(UHYVE_PORT_LSEEK, RLseek fd offset w)]).
Proof.
  intros w r.
  unfold inner_lseek, bind, uhyve_send, unwrap, ret; simpl.
  destruct whence; simpl; subst w r;
    rewrite Z.geb_leb; destruct (0 <=? _); reflexivity.
Qed.

(** C10: for a non-empty component list (components of a path that came in
    as a C string, hence NUL-free) the path whose address [traverse_open] and
    [traverse_unlink] hand to the host is exactly the concatenation, with no
    trailing NUL; with no components, [traverse_open] passes ["/\0"] (NUL
    terminated) and [traverse_unlink] passes ["/"] (not NUL terminated). *)
Theorem path_nul_termination (components : list string) (opt : Z) (h : Host)
    (Hne : components <> []) (Hcomp : existsb has_nul components = false) :
  snd (traverse_open components opt h []) =
    [(UHYVE_PORT_OPEN, ROpen (collect_path components) opt 0)]
  /\ snd (traverse_unlink components h []) =
    [(UHYVE_PORT_UNLINK, RUnlink (collect_path components))]
  /\ ends_with_nul (collect_path components) = false
  /\ open_path [] = String "/" (String nul EmptyString)
  /\ ends_with_nul (open_path []) = true
  /\ unlink_path [] = "/"%string
  /\ ends_with_nul (unlink_path []) = false.
Proof.
  assert (Hop : open_path components = collect_path components)
    by (destruct components; [congruence | reflexivity]).
  assert (Hun : unlink_path components = collect_path components)
    by (destruct components; [congruence | reflexivity]).
  split; [rewrite traverse_open_log, Hop; reflexivity|].
  split; [rewrite traverse_unlink_log, Hun; reflexivity|].
  split; [|repeat split].
  destruct (ends_with_nul (collect_path components)) eqn:E; [|reflexivity].
  apply ends_with_nul_has_nul in E. rewrite has_nul_collect_path, Hcomp in E.
  discriminate.
Qed.

Lemma path_nul_termination_witness :
  (["a"; "b"]%string <> [] /\ existsb has_nul ["a"; "b"]%string = false) /\
  (snd (traverse_open ["a"; "b"]%string 0 (fun _ => 3) []) =
     [(UHYVE_PORT_OPEN, ROpen "/a/b" 0 0)]
   /\ ends_with_nul "/a/b" = false).
Proof.
  split; [split; [discriminate | reflexivity]|].
  destruct (path_nul_termination ["a"; "b"]%string 0 (fun _ => 3))
    as [Ho [_ [He _]]]; [discriminate | reflexivity |].
  split; [exact Ho | exact He].
Defined.

(** C3 (defect): [traverse_open] passes the host's result itself, not its
    negation, to [FromPrimitive::from_i32]; no error kind has a non-positive
    discriminant, so every non-positive result panics in [unwrap] instead of
    returning an error.  Host result -2 for [open(["missing"])] panics, where
    [from_i32 2] would have been [ENOENT]. *)
Theorem traverse_open_nonpositive_panics (components : list string) (opt : Z) (h : Host)
    (log : list Event) :
  (fst (traverse_open components opt h log) =
     let r := i32_of (h (ROpen (open_path components) opt 0)) in
     if 0 <? r then Some (Ok r) else None)
  /\ traverse_open ["missing"]%string 0 (fun _ => -2) [] =
       (None, [(UHYVE_PORT_OPEN, ROpen "/missing" 0 0)])
  /\ from_i32 2 = Some ENOENT.
Proof.
  split; [|split; reflexivity].
  unfold traverse_open, bind, uhyve_send, unwrap, ret; simpl.
  destruct (0 <? _) eqn:E; [reflexivity|].
  rewrite from_i64_nonpos; [reflexivity|].
  apply Z.ltb_ge in E. exact E.
Qed.

(** C5 (as amended): a host error code [c] (the host writes [-c]) with no
    counterpart in the error-kind table has no kind whether it is looked up
    as written or negated, and no "unrecognized host error" value exists:
    [read], [open] and [unlink] unwrap the failed conversion and panic, so
    the code is neither coerced to some kind nor returned to the caller. *)
Theorem unmapped_host_code_panics (c : Z) (Hc : 0 < c) (Hunmapped : from_i64 c = None)
    (fd : Z) (buf : list ascii) (components : list string) (opt : Z) (h : Host)
    (log : list Event) :
  (from_i64 c = None /\ from_i64 (- c) = None)
  /\ (isize_of (h (RRead fd (Z.of_nat (List.length buf)))) = - c ->
     fst (inner_read fd buf h log) = None)
  /\ (i32_of (h (ROpen (open_path components) opt 0)) = - c ->
     fst (traverse_open components opt h log) = None)
  /\ (i32_of (h (RUnlink (unlink_path components))) = - c ->
     fst (traverse_unlink components h log) = None).
Proof.
  split; [split; [exact Hunmapped | apply from_i64_nonpos; lia]|].
  split; [|split]; intros Hr.
  - unfold inner_read, bind, uhyve_send, unwrap, ret; simpl. rewrite Hr.
    replace (- c >=? 0) with false by (symmetry; rewrite Z.geb_leb; apply Z.leb_gt; lia).
    unfold from_isize. rewrite from_i64_nonpos by lia. reflexivity.
  - unfold traverse_open, bind, uhyve_send, unwrap, ret; simpl. rewrite Hr.
    replace (0 <? - c) with false by (symmetry; apply Z.ltb_ge; lia).
    unfold from_i32. rewrite from_i64_nonpos by lia. reflexivity.
  - unfold traverse_unlink, bind, uhyve_send, unwrap, ret; simpl. rewrite Hr.
    replace (- c =? 0) with false by (symmetry; apply Z.eqb_neq; lia).
    unfold from_i32. rewrite from_i64_nonpos by lia. reflexivity.
Qed.

Lemma unmapped_host_code_panics_witness :
  (0 < 200 /\ from_i64 200 = None) /\
  fst (inner_read 3 ["x"]%char (fun _ => -200) []) = None.
Proof.
  split; [split; [lia | reflexivity]|].
  destruct (unmapped_host_code_panics 200 ltac:(lia) eq_refl 3 ["x"]%char [] 0
              (fun _ => -200) []) as [_ [Hread _]].
  apply Hread. reflexivity.
Defined.

(** C5, as stated, fails: host code 200 has no kind, yet [read], [open] and
    [unlink] surface no error condition to the caller for it (no [Err] of any
    kind is returned); the kernel panics instead. *)
Lemma unmapped_code_no_error_result :
  from_i64 200 = None
  /\ fst (inner_read 3 ["x"]%char (fun _ => -200) []) = None
  /\ (forall e, fst (inner_read 3 ["x"]%char (fun _ => -200) []) <> Some (Err e))
  /\ (forall e, fst (traverse_open ["a"]%string 0 (fun _ => -200) []) <> Some (Err e))
  /\ (forall e, fst (traverse_unlink ["a"]%string (fun _ => -200) []) <> Some (Err e)).
Proof.
  split; [reflexivity|]. split; [reflexivity|].
  split; [|split]; intros e; vm_compute; discriminate.
Qed.

(** C8 (defect): [traverse_unlink] returns [Ok] on host result 0, but, like
    [traverse_open], maps the host's result itself rather than its negation:
    host result -13 for [unlink(["a"])] panics, where [from_i32 13] would have
    been [EACCES]. *)
Theorem traverse_unlink_negative_panics :
  traverse_unlink ["a"]%string (fun _ => 0) [] =
    (Some (Ok tt), [(UHYVE_PORT_UNLINK, RUnlink "/a")])
  /\ traverse_unlink ["a"]%string (fun _ => -13) [] =
    (None, [(UHYVE_PORT_UNLINK, RUnlink "/a")])
  /\ from_i32 13 = Some EACCES.
Proof. repeat split. Qed.

(** C9: [init] registers the Directory Node at ["/host"] exactly when the
    oracle says so, leaves the filesystem alone otherwise, and panics when
    the mount fails (a node is already at ["/host"]). *)
Theorem init_mounts_host (fs : MountTable) :
  init false (Some fs) = Some (Some fs)
  /\ init false None = Some None
  /\ (mounted "/host" fs = false ->
      exists fs', init true (Some fs) = Some (Some fs')
        /\ lookup_mount "/host" fs' = Some UhyveDirectory
        /\ forall p, p <> "/host"%string -> lookup_mount p fs' = lookup_mount p fs)
  /\ (mounted "/host" fs = true -> init true (Some fs) = None)
  /\ init true None = None.
Proof.
  split; [reflexivity|]. split; [reflexivity|].
  split; [|split; [|reflexivity]].
  - intros Hm. exists (("/host"%string, UhyveDirectory) :: fs).
    unfold init, mount. rewrite Hm. split; [reflexivity|]. split; [reflexivity|].
    intros p Hp. cbn [lookup_mount].
    destruct (String.eqb_spec "/host" p); [congruence|reflexivity].
  - intros Hm. unfold init, mount. rewrite Hm. reflexivity.
Qed.

(* ------------------------------------------------------------------------- *)
(** * The handle life cycle *)

Module HandleFacts.
Import Handles.

Lemma replace_nth_length {A} (n : nat) (x : A) (l : list A) :
  List.length (replace_nth n x l) = List.length l.
Proof.
  revert n; induction l as [|y l IH]; intros [|n]; simpl; auto.
Qed.

Lemma nth_error_replace_nth {A} (n m : nat) (x : A) (l : list A) :
  (n < List.length l)%nat ->
  nth_error (replace_nth n x l) m = if Nat.eqb m n then Some x else nth_error l m.
Proof.
  revert n m; induction l as [|y l IH]; intros n m Hn; simpl in Hn; [lia|].
  destruct n as [|n], m as [|m]; simpl; auto.
  apply IH. lia.
Qed.

Lemma remove_nth_In {A} (n : nat) (x : A) (l : list A) :
  In x (remove_nth n l) -> In x l.
Proof.
  revert n; induction l as [|y l IH]; intros [|n]; simpl; auto.
  intros [H|H]; [left; exact H | right; exact (IH n H)].
Qed.

Lemma count_occ_remove_nth (l : list nat) (i c c' : nat) :
  nth_error l i = Some c ->
  count_occ Nat.eq_dec l c' =
    (count_occ Nat.eq_dec (remove_nth i l) c' + if Nat.eqb c' c then 1 else 0)%nat.
Proof.
  revert i; induction l as [|a l IH]; intros [|i] Hi; simpl in Hi; try discriminate.
  - injection Hi as ->. simpl.
    destruct (Nat.eq_dec c c'), (Nat.eqb_spec c' c); subst; try congruence; lia.
  - simpl. rewrite (IH i Hi). destruct (Nat.eq_dec a c'); lia.
Qed.

Lemma closes_of_app (c : nat) (l1 l2 : list (option nat * Event)) :
  closes_of c (l1 ++ l2) = (closes_of c l1 + closes_of c l2)%nat.
Proof. unfold closes_of. rewrite filter_app, length_app. reflexivity. Qed.

Lemma closes_of_none_for (c : nat) (l : list (option nat * Event)) :
  (forall c' e, In (Some c', e) l -> c' <> c) -> closes_of c l = O.
Proof.
  unfold closes_of.
  induction l as [|[[c'|] e] l IH]; intros Hl; simpl; auto.
  - destruct (Nat.eqb_spec c' c) as [->|_].
    + exfalso. apply (Hl c e); auto. left; reflexivity.
    + apply IH. intros c'' e' H. apply (Hl c'' e'). right; exact H.
  - apply IH. intros c'' e' H. apply (Hl c'' e'). right; exact H.
Qed.

Lemma inner_drop_events (fd : Z) (h : Host) :
  snd (inner_drop fd h []) = [(UHYVE_PORT_CLOSE, RClose fd)].
Proof. reflexivity. Qed.

(** The invariant of the handle heap: the strong count of every allocation
    is the number of live handles pointing at it, its inner value has been
    dropped (one Close) exactly when that number is zero, every Close in the
    log comes from the [Drop] of an allocation and carries its descriptor,
    and nothing else is a Close. *)
Definition inv (s : St) : Prop :=
  (forall r, In r (live s) -> r < List.length (heap s))%nat /\
  (forall c cell, nth_error (heap s) c = Some cell ->
      strong cell = live_refs c (live s) /\
      closes_of c (log s) = (if Nat.eqb (strong cell) 0 then 1 else 0)%nat) /\
  (forall c e, In (Some c, e) (log s) ->
      exists cell, nth_error (heap s) c = Some cell /\
                   e = (UHYVE_PORT_CLOSE, RClose (cell_fd cell))) /\
  (forall e, In (None, e) (log s) -> is_close e = false).

Lemma inv_init : inv init_st.
Proof.
  unfold inv, init_st; simpl. split; [|split; [|split]].
  - intros r [].
  - intros c cell H. destruct c; discriminate.
  - intros c e [].
  - intros e [].
Qed.

Lemma closes_of_single (c c' : nat) (e : Event) :
  closes_of c [(Some c', e)] = if Nat.eqb c' c then 1%nat else 0%nat.
Proof. unfold closes_of; simpl. destruct (Nat.eqb c' c); reflexivity. Qed.

Lemma closes_of_single_none (c : nat) (e : Event) : closes_of c [(None, e)] = O.
Proof. reflexivity. Qed.

Lemma inv_open (h : Host) (s s' : St) (comps : list string) (opt : Z) :
  inv s -> step h s (OpOpen comps opt) = Some s' -> inv s'.
Proof.
  intros [Hlive [Hcell [Hsome Hnone]]] Hstep. simpl in Hstep.
  pose proof (traverse_open_log comps opt h []) as Hl.
  destruct (traverse_open comps opt h []) as [[[fd|err]|] evs];
    simpl in Hl; subst evs; try discriminate; injection Hstep as <-.
  - unfold inv; cbn [heap live log tag map]. split; [|split; [|split]].
    + intros r Hr. rewrite length_app. simpl.
      apply in_app_or in Hr. destruct Hr as [Hr|[<-|[]]]; [apply Hlive in Hr|]; lia.
    + intros c cell Hc.
      destruct (Nat.ltb_spec c (List.length (heap s))) as [Hlt|Hge].
      * rewrite nth_error_app1 in Hc by exact Hlt.
        destruct (Hcell c cell Hc) as [Hs Hcl]. split.
        -- unfold live_refs in *. rewrite count_occ_app. simpl.
           destruct (Nat.eq_dec (List.length (heap s)) c); lia.
        -- rewrite closes_of_app, closes_of_single_none. lia.
      * rewrite nth_error_app2 in Hc by lia.
        destruct (c - List.length (heap s))%nat as [|k] eqn:E;
          [|destruct k; discriminate].
        injection Hc as <-. assert (c = List.length (heap s)) as -> by lia. simpl.
        split.
        -- unfold live_refs. rewrite count_occ_app. simpl.
           destruct (Nat.eq_dec _ _); [|congruence].
           assert (H0 : count_occ Nat.eq_dec (live s) (List.length (heap s)) = O).
           { apply count_occ_not_In. intros Hin. apply Hlive in Hin. lia. }
           rewrite H0. reflexivity.
        -- rewrite closes_of_app, closes_of_single_none.
           rewrite closes_of_none_for; [reflexivity|].
           intros c' e Hin. destruct (Hsome c' e Hin) as [cell' [Hc' _]].
           assert (c' < List.length (heap s))%nat by (apply nth_error_Some; congruence).
           lia.
    + intros c e Hin. apply in_app_or in Hin. destruct Hin as [Hin|[Hin|[]]];
        [|discriminate].
      destruct (Hsome c e Hin) as [cell [Hc He]]. exists cell. split; [|exact He].
      rewrite nth_error_app1; [exact Hc|]. apply nth_error_Some; congruence.
    + intros e Hin. apply in_app_or in Hin. destruct Hin as [Hin|[Hin|[]]]; [auto|].
      injection Hin as <-. reflexivity.
  - unfold inv; cbn [heap live log tag map]. split; [exact Hlive|split; [|split]].
    + intros c cell Hc. destruct (Hcell c cell Hc) as [Hs Hcl]. split; [exact Hs|].
      rewrite closes_of_app, closes_of_single_none. lia.
    + intros c e Hin. apply in_app_or in Hin. destruct Hin as [Hin|[Hin|[]]];
        [auto|discriminate].
    + intros e Hin. apply in_app_or in Hin. destruct Hin as [Hin|[Hin|[]]]; [auto|].
      injection Hin as <-. reflexivity.
Qed.

Lemma inv_clone (h : Host) (s s' : St) (i : nat) :
  inv s -> step h s (OpClone i) = Some s' -> inv s'.
Proof.
  intros [Hlive [Hcell [Hsome Hnone]]] Hstep. simpl in Hstep.
  destruct (nth_error (live s) i) as [c|] eqn:Hi; [|discriminate].
  destruct (nth_error (heap s) c) as [cell|] eqn:Hc; [|discriminate].
  injection Hstep as <-.
  assert (Hclt : (c < List.length (heap s))%nat) by (apply nth_error_Some; congruence).
  assert (Hcin : In c (live s)) by (eapply nth_error_In; exact Hi).
  destruct (Hcell c cell Hc) as [Hs Hcl].
  assert (Hpos : strong cell <> O).
  { rewrite Hs. unfold live_refs. intros H0. apply count_occ_not_In in H0. contradiction. }
  unfold inv; cbn [heap live log]. split; [|split; [|split]].
  - intros r Hr. rewrite replace_nth_length.
    apply in_app_or in Hr. destruct Hr as [Hr|[<-|[]]]; auto.
  - intros c'' cell'' Hc''. rewrite nth_error_replace_nth in Hc'' by exact Hclt.
    unfold live_refs. rewrite count_occ_app. simpl.
    destruct (Nat.eqb_spec c'' c) as [->|Hne].
    + injection Hc'' as <-. simpl. destruct (Nat.eq_dec c c); [|congruence].
      unfold live_refs in Hs. split; [lia|].
      rewrite Hcl. destruct (strong cell); [congruence|reflexivity].
    + destruct (Nat.eq_dec c c''); [congruence|].
      destruct (Hcell c'' cell'' Hc'') as [Hs'' Hcl''].
      unfold live_refs in Hs''. split; [lia|exact Hcl''].
  - intros c' e Hin. destruct (Hsome c' e Hin) as [cell' [Hc' He]].
    rewrite nth_error_replace_nth by exact Hclt.
    destruct (Nat.eqb_spec c' c) as [->|Hne].
    + eexists. split; [reflexivity|]. simpl.
      rewrite Hc in Hc'. injection Hc' as <-. exact He.
    + exists cell'. auto.
  - exact Hnone.
Qed.

Lemma inv_drop (h : Host) (s s' : St) (i : nat) :
  inv s -> step h s (OpDrop i) = Some s' -> inv s'.
Proof.
  intros [Hlive [Hcell [Hsome Hnone]]] Hstep. simpl in Hstep.
  destruct (nth_error (live s) i) as [c|] eqn:Hi; [|discriminate].
  destruct (nth_error (heap s) c) as [cell|] eqn:Hc; [|discriminate].
  assert (Hclt : (c < List.length (heap s))%nat) by (apply nth_error_Some; congruence).
  destruct (Hcell c cell Hc) as [Hs Hcl].
  assert (Hcount : forall c', live_refs c' (live s) =
            (live_refs c' (remove_nth i (live s)) + if Nat.eqb c' c then 1 else 0)%nat)
    by (intros; apply count_occ_remove_nth; exact Hi).
  destruct (strong cell) as [|[|m]] eqn:Hst; [discriminate| |];
    injection Hstep as <-.
  - try rewrite inner_drop_events.
    unfold inv; cbn [heap live log tag map]. split; [|split; [|split]].
    + intros r Hr. rewrite replace_nth_length. apply remove_nth_In in Hr. auto.
    + intros c'' cell'' Hc''. rewrite nth_error_replace_nth in Hc'' by exact Hclt.
      rewrite closes_of_app, closes_of_single. specialize (Hcount c'').
      destruct (Nat.eqb_spec c'' c) as [Heq|Hne]; [subst c''|].
      * injection Hc'' as <-. simpl. try rewrite Nat.eqb_refl in *.
        simpl in Hcl. rewrite Hcl. split; lia.
      * destruct (Hcell c'' cell'' Hc'') as [Hs'' Hcl''].
        destruct (Nat.eqb_spec c c''); [congruence|].
        split; lia.
    + intros c' e Hin. rewrite nth_error_replace_nth by exact Hclt.
      apply in_app_or in Hin. destruct Hin as [Hin|[Hin|[]]].
      * destruct (Hsome c' e Hin) as [cell' [Hc' He]].
        destruct (Nat.eqb_spec c' c) as [->|Hne].
        -- eexists. split; [reflexivity|]. simpl.
           rewrite Hc in Hc'. injection Hc' as <-. exact He.
        -- exists cell'. auto.
      * injection Hin as -> <-. rewrite Nat.eqb_refl.
        eexists. split; reflexivity.
    + intros e Hin. apply in_app_or in Hin. destruct Hin as [Hin|[Hin|[]]];
        [auto|discriminate].
  - unfold inv; cbn [heap live log]. split; [|split; [|split]].
    + intros r Hr. rewrite replace_nth_length. apply remove_nth_In in Hr. auto.
    + intros c'' cell'' Hc''. rewrite nth_error_replace_nth in Hc'' by exact Hclt.
      specialize (Hcount c'').
      destruct (Nat.eqb_spec c'' c) as [Heq|Hne]; [subst c''|].
      * injection Hc'' as <-. simpl. try rewrite Nat.eqb_refl in *.
        simpl in Hcl. rewrite Hcl. split; lia.
      * destruct (Hcell c'' cell'' Hc'') as [Hs'' Hcl''].
        split; lia.
    + intros c' e Hin. rewrite nth_error_replace_nth by exact Hclt.
      destruct (Hsome c' e Hin) as [cell' [Hc' He]].
      destruct (Nat.eqb_spec c' c) as [->|Hne].
      * eexists. split; [reflexivity|]. simpl.
        rewrite Hc in Hc'. injection Hc' as <-. exact He.
      * exists cell'. auto.
    + exact Hnone.
Qed.

Lemma inv_step (h : Host) (s s' : St) (op : Op) :
  inv s -> step h s op = Some s' -> inv s'.
Proof.
  destruct op; [apply inv_open | apply inv_clone | apply inv_drop].
Qed.

Lemma inv_run (h : Host) (ops : list Op) :
  forall s s', inv s -> run h s ops = Some s' -> inv s'.
Proof.
  induction ops as [|op ops IH]; intros s s' Hinv Hrun; simpl in Hrun.
  - injection Hrun as <-. exact Hinv.
  - destruct (step h s op) as [s1|] eqn:Hs; [|discriminate].
    exact (IH s1 s' (inv_step h s s1 op Hinv Hs) Hrun).
Qed.

(** C1: after any run of opens, clones and ends of scope of file handles,
    every handle allocation created by a successful Open has had exactly one
    Close hypercall, carrying its descriptor, if its last live handle is gone,
    and none while a handle to it is alive; every Close hypercall comes from
    such a drop; and cloning a handle issues no hypercall and gives a handle
    on the same allocation (same descriptor, same guard). *)
Theorem handle_closed_exactly_once (h : Host) (ops : list Op) (s : St)
    (Hrun : run h init_st ops = Some s) :
  (forall c cell, nth_error (heap s) c = Some cell ->
     strong cell = live_refs c (live s)
     /\ closes_of c (log s) = (if Nat.eqb (live_refs c (live s)) 0 then 1 else 0)%nat
     /\ (forall e, In (Some c, e) (log s) -> e = (UHYVE_PORT_CLOSE, RClose (cell_fd cell))))
  /\ (forall a e, In (a, e) (log s) -> is_close e = true -> exists c, a = Some c)
  /\ (forall i s', step h s (OpClone i) = Some s' ->
        log s' = log s
        /\ nth_error (live s') (List.length (live s)) = nth_error (live s) i
        /\ (forall c, option_map cell_fd (nth_error (heap s') c) =
                      option_map cell_fd (nth_error (heap s) c))).
Proof.
  destruct (inv_run h ops init_st s inv_init Hrun) as [Hlive [Hcell [Hsome Hnone]]].
  split; [|split].
  - intros c cell Hc. destruct (Hcell c cell Hc) as [Hs Hcl].
    split; [exact Hs|]. split; [rewrite <- Hs; exact Hcl|].
    intros e Hin. destruct (Hsome c e Hin) as [cell' [Hc' He]].
    rewrite Hc in Hc'. injection Hc' as <-. exact He.
  - intros [c|] e Hin Hclose; [exists c; reflexivity|].
    rewrite (Hnone e Hin) in Hclose. discriminate.
  - intros i s' Hstep. simpl in Hstep.
    destruct (nth_error (live s) i) as [c|] eqn:Hi; [|discriminate].
    destruct (nth_error (heap s) c) as [cell|] eqn:Hc; [|discriminate].
    injection Hstep as <-. cbn [heap live log].
    assert (Hclt : (c < List.length (heap s))%nat) by (apply nth_error_Some; congruence).
    split; [reflexivity|]. split.
    + rewrite nth_error_app2 by lia. rewrite Nat.sub_diag. reflexivity.
    + intros c'. rewrite nth_error_replace_nth by exact Hclt.
      destruct (Nat.eqb_spec c' c) as [Heq|_]; [subst c'; rewrite Hc|]; reflexivity.
Qed.

Lemma handle_closed_exactly_once_witness :
  let h : Host := fun r => match r with ROpen _ _ _ => 3 | _ => 0 end in
  let ops := [OpOpen ["tmp"; "x"]%string 65; OpClone 0; OpDrop 0; OpDrop 0] in
  let s := {| heap := [{| cell_fd := 3; strong := 0 |}];
              live := [];
              log := [(None, (UHYVE_PORT_OPEN, ROpen "/tmp/x" 65 0));
                      (Some 0%nat, (UHYVE_PORT_CLOSE, RClose 3))] |} in
  run h init_st ops = Some s /\ closes_of 0 (log s) = 1%nat.
Proof.
  intros h ops s. split; [reflexivity|].
  destruct (handle_closed_exactly_once h ops s eq_refl) as [Hcells _].
  destruct (Hcells 0%nat {| cell_fd := 3; strong := 0 |} eq_refl) as [_ [Hcl _]].
  rewrite Hcl. reflexivity.
Defined.

End HandleFacts.

(* ------------------------------------------------------------------------- *)
(** * Further properties of the bridge *)

(** X1: [read] issues one Read hypercall carrying the buffer's length
    (0 for an empty buffer) and returns [Ok r] for a host count [r >= 0];
    for every negative host result it panics and never returns an error. *)
Theorem read_outcome (fd : Z) (buf : list ascii) (h : Host) (log : list Event) :
  let len := Z.of_nat (List.length buf) in
  let r := isize_of (h (RRead fd len)) in
  inner_read fd buf h log =
    (if 0 <=? r then Some (Ok r) else None, log ++ [(UHYVE_PORT_READ, RRead fd len)]).
Proof.
  intros len r. unfold inner_read, bind, uhyve_send, unwrap, ret; simpl.
  fold len r. rewrite Z.geb_leb.
  destruct (Z.leb_spec 0 r); [reflexivity|].
  unfold from_isize. rewrite from_i64_nonpos by lia. reflexivity.
Qed.

(** X3: [traverse_unlink] returns an error only when the host's result is
    positive, and then the error is the kind whose number is that result. *)
Theorem unlink_error_only_positive (components : list string) (h : Host)
    (log : list Event) (e : IoError)
    (Herr : fst (traverse_unlink components h log) = Some (Err e)) :
  let r := i32_of (h (RUnlink (unlink_path components))) in
  0 < r /\ IoError_discriminant e = r.
Proof.
  intros r. unfold traverse_unlink, bind, uhyve_send, unwrap, ret in Herr; simpl in Herr.
  fold r in Herr.
  destruct (Z.eqb_spec r 0); [discriminate|].
  destruct (Z.leb_spec r 0) as [Hle|Hgt].
  - rewrite from_i64_nonpos in Herr by exact Hle. discriminate.
  - split; [lia|].
    destruct (from_i32 r) as [e'|] eqn:Hf; [|discriminate].
    injection Herr as <-. unfold from_i32, from_i64 in Hf.
    apply find_some in Hf. destruct Hf as [_ Hf]. apply Z.eqb_eq. exact Hf.
Qed.

Lemma unlink_error_only_positive_witness :
  fst (traverse_unlink ["a"]%string (fun _ => 2) []) = Some (Err ENOENT) /\
  (0 < 2 /\ IoError_discriminant ENOENT = 2).
Proof.
  split; [reflexivity|].
  exact (unlink_error_only_positive ["a"]%string (fun _ => 2) [] ENOENT eq_refl).
Defined.

(** X4: [init] run a second time under the hypervisor panics: the first run
    has mounted ["/host"], and the second mount at that path fails. *)
Theorem init_twice_panics (fs fs' : MountTable)
    (Hfirst : init true (Some fs) = Some (Some fs')) :
  init true (Some fs') = None.
Proof.
  unfold init, mount in *.
  destruct (mounted "/host" fs); [discriminate|].
  injection Hfirst as <-. reflexivity.
Qed.

Lemma init_twice_panics_witness :
  init true (Some []) = Some (Some [("/host"%string, UhyveDirectory)]) /\
  init true (Some [("/host"%string, UhyveDirectory)]) = None.
Proof.
  split; [reflexivity|].
  exact (init_twice_panics [] _ eq_refl).
Defined.

Module HandleExtras.
Import Handles HandleFacts.

Lemma step_heap_grows (h : Host) (s s' : St) (op : Op) :
  step h s op = Some s' -> (List.length (heap s) <= List.length (heap s'))%nat.
Proof.
  destruct op as [comps opt|i|i]; simpl; intros Hstep.
  - destruct (traverse_open comps opt h []) as [[[fd|err]|] evs]; try discriminate;
      injection Hstep as <-; simpl; [rewrite length_app; simpl; lia | lia].
  - destruct (nth_error (live s) i) as [c|]; [|discriminate].
    destruct (nth_error (heap s) c); [|discriminate].
    injection Hstep as <-. simpl. rewrite replace_nth_length. lia.
  - destruct (nth_error (live s) i) as [c|]; [|discriminate].
    destruct (nth_error (heap s) c) as [cell|]; [|discriminate].
    destruct (strong cell) as [|[|m]]; try discriminate;
      injection Hstep as <-; simpl; rewrite replace_nth_length; lia.
Qed.

Lemma step_keeps_released (h : Host) (s s' : St) (op : Op) (c : nat) :
  inv s -> (c < List.length (heap s))%nat -> live_refs c (live s) = O ->
  step h s op = Some s' -> live_refs c (live s') = O.
Proof.
  intros [Hlive _] Hc Hzero Hstep. unfold live_refs in *.
  destruct op as [comps opt|i|i]; simpl in Hstep.
  - destruct (traverse_open comps opt h []) as [[[fd|err]|] evs]; try discriminate;
      injection Hstep as <-; simpl; [|exact Hzero].
    rewrite count_occ_app, Hzero. simpl.
    destruct (Nat.eq_dec (List.length (heap s)) c); [lia|reflexivity].
  - destruct (nth_error (live s) i) as [c0|] eqn:Hi; [|discriminate].
    destruct (nth_error (heap s) c0); [|discriminate].
    injection Hstep as <-. simpl. rewrite count_occ_app, Hzero. simpl.
    destruct (Nat.eq_dec c0 c) as [->|]; [|reflexivity].
    apply count_occ_not_In in Hzero. exfalso. apply Hzero.
    eapply nth_error_In. exact Hi.
  - destruct (nth_error (live s) i) as [c0|] eqn:Hi; [|discriminate].
    pose proof (count_occ_remove_nth (live s) i c0 c Hi) as Hcount.
    destruct (nth_error (heap s) c0) as [cell|]; [|discriminate].
    destruct (strong cell) as [|[|m]]; try discriminate;
      injection Hstep as <-; simpl; lia.
Qed.

(** X5: a handle allocation whose last reference is gone stays closed: no
    later open, clone or drop gives it a live handle again, and its Close
    count stays at exactly one (no second Close, no reuse after closure). *)
Theorem released_handle_stays_closed (h : Host) (ops ops' : list Op) (s s' : St)
    (c : nat) (cell : Cell)
    (Hrun : run h init_st ops = Some s)
    (Hc : nth_error (heap s) c = Some cell)
    (Hzero : live_refs c (live s) = O)
    (Hrun' : run h s ops' = Some s') :
  live_refs c (live s') = O /\ closes_of c (log s) = 1%nat /\ closes_of c (log s') = 1%nat.
Proof.
  pose proof (inv_run h ops init_st s inv_init Hrun) as Hinv.
  assert (Hclose : forall t cellt, inv t -> nth_error (heap t) c = Some cellt ->
                   live_refs c (live t) = O -> closes_of c (log t) = 1%nat).
  { intros t cellt [_ [Hcell _]] Ht Hz. destruct (Hcell c cellt Ht) as [Hs Hcl].
    rewrite Hcl, Hs, Hz. reflexivity. }
  assert (Hlt : (c < List.length (heap s))%nat) by (apply nth_error_Some; congruence).
  assert (Hgen : forall ops0 t t', inv t -> (c < List.length (heap t))%nat ->
            live_refs c (live t) = O -> run h t ops0 = Some t' ->
            inv t' /\ (c < List.length (heap t'))%nat /\ live_refs c (live t') = O).
  { induction ops0 as [|op ops0 IH]; intros t t' Hi Hl Hz Hr; simpl in Hr.
    - injection Hr as <-. auto.
    - destruct (step h t op) as [t1|] eqn:Hs; [|discriminate].
      apply (IH t1 t'); [exact (inv_step h t t1 op Hi Hs)| |exact (step_keeps_released h t t1 op c Hi Hl Hz Hs)|exact Hr].
      pose proof (step_heap_grows h t t1 op Hs). lia. }
  destruct (Hgen ops' s s' Hinv Hlt Hzero Hrun') as [Hinv' [Hlt' Hz']].
  destruct (nth_error (heap s') c) as [cell'|] eqn:Hc'.
  2:{ apply nth_error_None in Hc'. lia. }
  split; [exact Hz'|]. split.
  - exact (Hclose s cell Hinv Hc Hzero).
  - exact (Hclose s' cell' Hinv' Hc' Hz').
Qed.

Lemma released_handle_stays_closed_witness :
  let h : Host := fun r => match r with ROpen _ _ _ => 3 | _ => 0 end in
  let s1 := {| heap := [{| cell_fd := 3; strong := 0 |}]; live := [];
               log := [(None, (UHYVE_PORT_OPEN, ROpen "/x" 0 0));
                       (Some 0%nat, (UHYVE_PORT_CLOSE, RClose 3))] |} in
  let s2 := {| heap := [{| cell_fd := 3; strong := 0 |}; {| cell_fd := 3; strong := 1 |}];
               live := [1%nat];
               log := [(None, (UHYVE_PORT_OPEN, ROpen "/x" 0 0));
                       (Some 0%nat, (UHYVE_PORT_CLOSE, RClose 3));
                       (None, (UHYVE_PORT_OPEN, ROpen "/x" 0 0))] |} in
  (run h init_st [OpOpen ["x"]%string 0; OpDrop 0] = Some s1 /\
   nth_error (heap s1) 0 = Some {| cell_fd := 3; strong := 0 |} /\
   live_refs 0 (live s1) = O /\
   run h s1 [OpOpen ["x"]%string 0] = Some s2) /\
  (live_refs 0 (live s2) = O /\ closes_of 0 (log s1) = 1%nat /\ closes_of 0 (log s2) = 1%nat).
Proof.
  intros h s1 s2. split; [repeat split|].
  exact (released_handle_stays_closed h [OpOpen ["x"]%string 0; OpDrop 0]
           [OpOpen ["x"]%string 0] s1 s2 0 {| cell_fd := 3; strong := 0 |}
           eq_refl eq_refl eq_refl eq_refl).
Defined.

Lemma close_count_app (l1 l2 : list (option nat * Event)) :
  close_count (l1 ++ l2) = (close_count l1 + close_count l2)%nat.
Proof. unfold close_count. rewrite filter_app, length_app. reflexivity. Qed.

Lemma close_count_open (r : Req) :
  close_count [(None, (UHYVE_PORT_OPEN, r))] = O.
Proof. reflexivity. Qed.

Lemma close_count_close (a : option nat) (r : Req) :
  close_count [(a, (UHYVE_PORT_CLOSE, r))] = 1%nat.
Proof. reflexivity. Qed.

Lemma released_count_app (l1 l2 : list Cell) :
  released_count (l1 ++ l2) = (released_count l1 + released_count l2)%nat.
Proof. unfold released_count. rewrite filter_app, length_app. reflexivity. Qed.

Lemma released_count_replace (l : list Cell) (c : nat) (x y : Cell) :
  nth_error l c = Some y ->
  (released_count (replace_nth c x l) + (if Nat.eqb (strong y) 0 then 1 else 0) =
   released_count l + (if Nat.eqb (strong x) 0 then 1 else 0))%nat.
Proof.
  unfold released_count.
  revert c; induction l as [|z l IH]; intros [|c] Hc; simpl in Hc; try discriminate.
  - injection Hc as ->. simpl.
    destruct (Nat.eqb (strong x) 0), (Nat.eqb (strong y) 0); simpl; lia.
  - simpl. specialize (IH c Hc). destruct (Nat.eqb (strong z) 0); simpl; lia.
Qed.

Lemma step_close_count (h : Host) (s s' : St) (op : Op) :
  inv s -> close_count (log s) = released_count (heap s) ->
  step h s op = Some s' -> close_count (log s') = released_count (heap s').
Proof.
  intros Hinv Hcnt Hstep. destruct Hinv as [Hlive [Hcell _]].
  destruct op as [comps opt|i|i]; simpl in Hstep.
  - pose proof (traverse_open_log comps opt h []) as Hl.
    destruct (traverse_open comps opt h []) as [[[fd|err]|] evs];
      simpl in Hl; subst evs; try discriminate; injection Hstep as <-; simpl.
    + rewrite close_count_app, released_count_app, Hcnt, close_count_open.
      reflexivity.
    + rewrite close_count_app, Hcnt, close_count_open. lia.
  - destruct (nth_error (live s) i) as [c|] eqn:Hi; [|discriminate].
    destruct (nth_error (heap s) c) as [cell|] eqn:Hc; [|discriminate].
    injection Hstep as <-. simpl.
    destruct (Hcell c cell Hc) as [Hs _].
    assert (Hpos : strong cell <> O).
    { rewrite Hs. unfold live_refs. intros H0. apply count_occ_not_In in H0.
      apply H0. eapply nth_error_In. exact Hi. }
    pose proof (released_count_replace (heap s) c
                  {| cell_fd := cell_fd cell; strong := S (strong cell) |} cell Hc) as Hr.
    simpl in Hr. destruct (strong cell); [congruence|]. simpl in Hr. lia.
  - destruct (nth_error (live s) i) as [c|] eqn:Hi; [|discriminate].
    destruct (nth_error (heap s) c) as [cell|] eqn:Hc; [|discriminate].
    destruct (strong cell) as [|[|m]] eqn:Hst; try discriminate;
      injection Hstep as <-; simpl.
    + try rewrite inner_drop_events. rewrite close_count_app, Hcnt.
      pose proof (released_count_replace (heap s) c
                    {| cell_fd := cell_fd cell; strong := O |} cell Hc) as Hr.
      rewrite close_count_close. rewrite Hst in Hr. simpl in Hr. lia.
    + pose proof (released_count_replace (heap s) c
                    {| cell_fd := cell_fd cell; strong := S m |} cell Hc) as Hr.
      rewrite Hst in Hr. simpl in Hr. lia.
Qed.

(** X6: after any run of opens, clones and drops, the number of Close
    hypercalls issued equals the number of handle allocations whose last
    reference is gone, and so never exceeds the number of handles that
    successful opens created. *)
Theorem close_count_matches_released (h : Host) (ops : list Op) (s : St)
    (Hrun : run h init_st ops = Some s) :
  close_count (log s) = released_count (heap s)
  /\ (released_count (heap s) <= List.length (heap s))%nat.
Proof.
  split; [|unfold released_count; apply filter_length_le].
  assert (Hgen : forall ops0 t t', inv t -> close_count (log t) = released_count (heap t) ->
            run h t ops0 = Some t' -> close_count (log t') = released_count (heap t')).
  { induction ops0 as [|op ops0 IH]; intros t t' Hi Hc Hr; simpl in Hr.
    - injection Hr as <-. exact Hc.
    - destruct (step h t op) as [t1|] eqn:Hs; [|discriminate].
      exact (IH t1 t' (inv_step h t t1 op Hi Hs) (step_close_count h t t1 op Hi Hc Hs) Hr). }
  exact (Hgen ops init_st s inv_init eq_refl Hrun).
Qed.

Lemma close_count_matches_released_witness :
  let h : Host := fun r => match r with ROpen _ _ _ => 4 | _ => 0 end in
  let ops := [OpOpen ["a"]%string 0; OpOpen ["b"]%string 0; OpClone 1; OpDrop 0; OpDrop 0] in
  let s := {| heap := [{| cell_fd := 4; strong := 0 |}; {| cell_fd := 4; strong := 1 |}];
              live := [1%nat];
              log := [(None, (UHYVE_PORT_OPEN, ROpen "/a" 0 0));
                      (None, (UHYVE_PORT_OPEN, ROpen "/b" 0 0));
                      (Some 0%nat, (UHYVE_PORT_CLOSE, RClose 4))] |} in
  run h init_st ops = Some s /\
  (close_count (log s) = released_count (heap s) /\
   (released_count (heap s) <= List.length (heap s))%nat).
Proof.
  intros h ops s. split; [reflexivity|].
  exact (close_count_matches_released h ops s eq_refl).
Defined.

End HandleExtras.
